(** * devilution-comparer: shallow embedding of [src/src/main.rs] and
    [src/src/cmdline.rs], with the parts of the alignment engine that live in
    the (absent) [corelogic] module modelled from the spec. *)

From Stdlib Require Import ZArith Lia List String Ascii Bool.
Import ListNotations.
Open Scope string_scope.

(** ** Rust-level vocabulary *)

(** [Result<T, E>]. *)
Inductive result (A E : Type) : Type :=
| Ok (a : A)
| Err (e : E).
Arguments Ok {A E} a.
Arguments Err {A E} e.

(** Unsigned 64-bit integers are [Z] values in [0, 2^64); [u64_sub] is the
    subtraction [a - b] of two [u64] (or [usize] on a 64-bit target) as a
    release build computes it: wrap-around modulo [2^64]. *)
Definition u64_modulus : Z := 2 ^ 64.
Definition is_u64 (x : Z) : Prop := (0 <= x < u64_modulus)%Z.
Definition u64_sub (a b : Z) : Z := ((a - b) mod u64_modulus)%Z.

(** [format!("{:X}", n)] for an unsigned [n]: upper-case hex digits, no
    leading zeros, ["0"] for zero.  Sixteen digits cover every [u64]. *)
Definition hex_digit (d : Z) : ascii :=
  if (d <? 10)%Z then ascii_of_nat (48 + Z.to_nat d)
  else ascii_of_nat (55 + Z.to_nat d).

Fixpoint hex_aux (fuel : nat) (n : Z) (acc : string) : string :=
  match fuel with
  | O => acc
  | S f =>
      let acc' := String (hex_digit (n mod 16)) acc in
      if (n <? 16)%Z then acc' else hex_aux f (n / 16) acc'
  end.

Definition fmt_upper_hex (n : Z) : string := hex_aux 16 n "".

(** [format!("{:+X}", n)] for an unsigned [n]: the sign flag always prints
    a [+] in front of the hex digits. *)
Definition fmt_plus_upper_hex (n : Z) : string := "+" ++ fmt_upper_hex n.

(** ** [corelogic::CoreError], as matched in [run_disassemble].  Each payload
    is kept as the text its [{:?}] (Debug) rendering prints. *)
Inductive CoreError :=
| CvDumpFail (e : string)
| CvDumpUnsuccessful
| SymbolNotFound
| IoError (e : string)
| CapstoneError (e : string).

(** The five error kinds of the spec's taxonomy, in the same order. *)
Inductive ErrorKind :=
| ToolInvocationFailed
| ToolExitedUnsuccessfully
| KSymbolNotFound
| IOFailure
| DecodeFailure.

Definition error_kind (e : CoreError) : ErrorKind :=
  match e with
  | CvDumpFail _ => ToolInvocationFailed
  | CvDumpUnsuccessful => ToolExitedUnsuccessfully
  | SymbolNotFound => KSymbolNotFound
  | IoError _ => IOFailure
  | CapstoneError _ => DecodeFailure
  end.

(** [Opts] of [main.rs], with the fields [watch] and [run_disassemble] read or
    write.  Offsets and lengths are [u64]/[usize] values. *)
Record Opts := mkOpts {
  compare_pdb_file : string;
  debug_symbol : string;
  last_offset_length : option (Z * Z);
  enable_watcher : bool
}.

Definition set_last_offset_length (o : Opts) (v : option (Z * Z)) : Opts :=
  mkOpts (compare_pdb_file o) (debug_symbol o) v (enable_watcher o).

(** What [run_compare(&opts)] returned: [Ok((offset, length))] or an error. *)
Definition CompareResult := result (Z * Z) CoreError.

(** ** [run_disassemble] *)

(** The message printed for each error (lines 127-133). *)
Definition error_message (e : CoreError) : string :=
  match e with
  | CvDumpFail d => "CvDump.exe error: " ++ d
  | CvDumpUnsuccessful => "CvDump exited with errorcode != 0."
  | SymbolNotFound => "Symbol not found in the pdb."
  | IoError d => "IO error: " ++ d
  | CapstoneError d => "Capstone disassembly engine error: " ++ d
  end.

(** The deltas the success line prints: [offset - old_offset] and
    [length - old_length] on the unsigned operands, when a previous result
    is retained. *)
Definition offset_delta (o : Opts) (offset : Z) : option Z :=
  match last_offset_length o with
  | Some (old_offset, _) => Some (u64_sub offset old_offset)
  | None => None
  end.

Definition length_delta (o : Opts) (length : Z) : option Z :=
  match last_offset_length o with
  | Some (_, old_length) => Some (u64_sub length old_length)
  | None => None
  end.

Definition fmt_delta (d : option Z) : string :=
  match d with
  | Some v => " (" ++ fmt_plus_upper_hex v ++ ")"
  | None => ""
  end.

Definition found_line (o : Opts) (offset length : Z) : string :=
  "Found " ++ debug_symbol o ++ " at offset: " ++ fmt_upper_hex offset
  ++ fmt_delta (offset_delta o offset) ++ ", length: " ++ fmt_upper_hex length
  ++ fmt_delta (length_delta o length).

(** One call of [run_disassemble] given the outcome of [run_compare]: the
    updated options and the printed line. *)
Definition run_disassemble (o : Opts) (r : CompareResult) : Opts * string :=
  match r with
  | Ok (offset, length) =>
      (set_last_offset_length o (Some (offset, length)), found_line o offset length)
  | Err e => (o, error_message e)
  end.

(** ** [watch] *)

(** [notify::DebouncedEvent]; paths are kept as strings. *)
Inductive DebouncedEvent :=
| NoticeWrite (p : string)
| NoticeRemove (p : string)
| Create (p : string)
| Write (p : string)
| Chmod (p : string)
| Remove (p : string)
| Rename (p q : string)
| Rescan
| Error (e : string) (p : option string).

(** What [rx.recv()] returns: an event, or [Err(RecvError)]. *)
Inductive RecvResult :=
| RecvOk (ev : DebouncedEvent)
| RecvErr.

(** The observable effects of [watch], in program order. *)
Inductive Effect :=
| ERunCompare (r : CompareResult)  (** a call of [run_compare] and its outcome *)
| EPrint (s : string)               (** a [println!] *)
| ENewWatcher                       (** [Watcher::new(tx, 2s)] *)
| EWatchPath (p : string).          (** [watcher.watch(pdb, NonRecursive)] *)

(** The state threaded through [watch]: the [opts] it owns mutably, the
    number of [run_compare] calls so far, and the effects performed. *)
Record World := mkWorld {
  w_opts : Opts;
  w_runs : nat;
  w_trace : list Effect
}.

Definition emit (w : World) (es : list Effect) : World :=
  mkWorld (w_opts w) (w_runs w) (w_trace w ++ es).

Section WatchModel.

(** [run_compare] reads the binaries and the PDB, which change between calls:
    its outcome is given per call, by the number of calls made before. *)
Variable run_compare : nat -> CompareResult.

Definition run_disassemble_w (w : World) : World :=
  let r := run_compare (w_runs w) in
  let '(o', line) := run_disassemble (w_opts w) r in
  mkWorld o' (S (w_runs w)) (w_trace w ++ [ERunCompare r; EPrint line]).

(** One iteration of the [loop] (lines 94-102). *)
Definition watch_step (w : World) (m : RecvResult) : World :=
  match m with
  | RecvOk (Create _) | RecvOk (Write _) => run_disassemble_w w
  | RecvErr => emit w [EPrint "Watch error: RecvError"]
  | RecvOk _ => w
  end.

(** The [loop] never leaves by itself; its behaviour is described by the
    state it reaches after any finite sequence of received messages. *)
Definition watch_loop (w : World) (ms : list RecvResult) : World :=
  fold_left watch_step ms w.

Inductive WatchOutcome :=
| Returned (r : result unit string) (w : World)  (** [watch] returned [r] *)
| Watching (w : World).                           (** still inside [loop] *)

(** [watch(opts)]: [new_res] and [sub_res] are the outcomes of
    [Watcher::new] and of [watcher.watch], [ms] the messages received so
    far. *)
Definition watch (new_res sub_res : result unit string) (ms : list RecvResult)
    (opts : Opts) : WatchOutcome :=
  let w1 := run_disassemble_w (mkWorld opts 0 []) in
  if negb (enable_watcher (w_opts w1)) then Returned (Ok tt) w1 else
  let w2 := emit w1 [ENewWatcher] in
  match new_res with
  | Err e => Returned (Err e) w2
  | Ok _ =>
      let w3 := emit w2 [EWatchPath (compare_pdb_file (w_opts w2))] in
      match sub_res with
      | Err e => Returned (Err e) w3
      | Ok _ =>
          let w4 := emit w3 [EPrint ("Started watching " ++ compare_pdb_file (w_opts w3)
                                     ++ " for changes. CTRL+C to quit.")] in
          Watching (watch_loop w4 ms)
      end
  end.

End WatchModel.

(** ** Image Accessor (in [corelogic], absent) *)

(** Modelled from the spec: the section table and [translate] of the Image
    Accessor (§3 SectionMap, §4.2), which live in the missing [corelogic]
    module.  A section covers the virtual range
    [[virtual_address, virtual_address + virtual_size)]. *)
Record ImageSection := mkSection {
  virtual_address : Z;
  virtual_size : Z;
  file_offset : Z
}.

Definition in_section (a : Z) (s : ImageSection) : bool :=
  ((virtual_address s <=? a) && (a <? virtual_address s + virtual_size s))%Z.

(** Two sections overlap when their virtual ranges intersect. *)
Definition sections_overlap (s t : ImageSection) : Prop :=
  (virtual_address s < virtual_address t + virtual_size t /\
   virtual_address t < virtual_address s + virtual_size s)%Z.

(** The SectionMap invariant: virtual ranges are pairwise non-overlapping. *)
Definition well_formed (secs : list ImageSection) : Prop :=
  ForallOrdPairs (fun s t => ~ sections_overlap s t) secs.

Inductive TranslateError := AddressOutOfSection.

(** Modelled from the spec: [translate(section_map, virtual_address)] locates
    the unique section containing the address and returns
    [section.file_offset + (virtual_address - section.virtual_address)]. *)
Definition translate (secs : list ImageSection) (a : Z) : result Z TranslateError :=
  match filter (in_section a) secs with
  | [s] => Ok (file_offset s + (a - virtual_address s))%Z
  | _ => Err AddressOutOfSection
  end.

(** Errors of the spec-level pipeline (§7). *)
Inductive SpecError := SIOFailure | SDecodeFailure | SSymbolNotFound.

(** Modelled from the spec: [read_bytes(image, file_offset, length)] fails
    when the requested range exceeds the image buffer. *)
Definition read_bytes (image : list Byte.byte) (off : Z) (len : nat)
    : result (list Byte.byte) SpecError :=
  if ((0 <=? off) && (off + Z.of_nat len <=? Z.of_nat (List.length image)))%Z
  then Ok (firstn len (skipn (Z.to_nat off) image))
  else Err SIOFailure.

(** ** Decoder Adapter (in [corelogic], absent) *)

(** The external decoding capability [decode_one(bytes_from_here)]:
    [Some (consumed_byte_count, text)] or [None] on an undecodable byte. *)
Definition Decoder := list Byte.byte -> option (nat * string).

Record Instruction := mkInstruction {
  address : Z;
  byte_length : nat;
  mnemonic_and_operands : string
}.

(** Modelled from the spec (§4.3): decode from [addr], stopping once
    [remaining] bytes of the [max_length] budget are used up, when the input
    is exhausted, or at the first undecodable byte. *)
Fixpoint decode_aux (dec : Decoder) (fuel : nat) (bs : list Byte.byte) (addr : Z)
    (remaining : nat) : list Instruction :=
  match fuel, remaining with
  | O, _ | _, O => []
  | S f, S _ =>
      match dec bs with
      | None => []
      | Some (n, txt) =>
          mkInstruction addr n txt
            :: decode_aux dec f (skipn n bs) (addr + Z.of_nat n)%Z (remaining - n)
      end
  end.

Definition decode (dec : Decoder) (bs : list Byte.byte) (start : Z) (max_length : nat)
    : list Instruction :=
  decode_aux dec (S (List.length bs)) bs start max_length.

Definition consumed (ins : list Instruction) : nat :=
  fold_right (fun i acc => byte_length i + acc) 0 ins.

(** ** Alignment Engine, compare side (in [corelogic], absent) *)

(** Modelled from the spec (§4.5 step 5): the number of bytes the compare
    stream is decoded over.  [final_len] is the length of step 2,
    [ref_len] the reference function's own length when it is known. *)
Definition compare_length (truncate_to_original : bool) (final_len : nat)
    (ref_len : option nat) : nat :=
  if truncate_to_original then
    match ref_len with Some r => r | None => final_len end
  else final_len.

(** Modelled from the spec (§4.5 step 3): translate [rva], read [len] bytes
    and decode them anchored at [rva]; zero instructions out of a non-empty
    range is a [DecodeFailure]. *)
Definition decode_at (dec : Decoder) (image : list Byte.byte) (secs : list ImageSection)
    (rva : Z) (len : nat) : result (list Instruction) SpecError :=
  match translate secs rva with
  | Err _ => Err SIOFailure
  | Ok off =>
      match read_bytes image off len with
      | Err e => Err e
      | Ok bs =>
          match decode dec bs rva len with
          | [] => if Nat.eqb len 0 then Ok [] else Err SDecodeFailure
          | ins => Ok ins
          end
      end
  end.

Definition compare_stream (dec : Decoder) (image : list Byte.byte)
    (secs : list ImageSection) (rva : Z) (truncate_to_original : bool)
    (final_len : nat) (ref_len : option nat) : result (list Instruction) SpecError :=
  decode_at dec image secs rva (compare_length truncate_to_original final_len ref_len).

(** ** Display options: [parse_disasm_opts] of [cmdline.rs] *)

Record DisasmOpts := mkDisasmOpts {
  print_adresses : bool;
  show_mem_disp : bool;
  show_imms : bool
}.

(** The [is_present] answers of the clap matches the function reads. *)
Record DisasmFlags := mkDisasmFlags {
  present_show_ip : bool;
  present_no_mem_disp : bool;
  present_no_imms : bool
}.

Definition parse_disasm_opts (m : DisasmFlags) : DisasmOpts :=
  mkDisasmOpts (present_show_ip m) (negb (present_no_mem_disp m))
    (negb (present_no_imms m)).

(** ** Redaction & Formatting (in [corelogic], absent) *)

(** Modelled from the spec (§4.4): decoded operands, with the memory
    operand's displacement (also the target of an indirect call through
    memory) kept apart from its registers. *)
Inductive Operand :=
| OpReg (r : string)
| OpImm (v : Z)
| OpMem (ptr_size : string) (base : option string) (index : option (string * Z))
        (disp : Z).

Record DecodedInstruction := mkDecoded {
  d_address : Z;
  d_mnemonic : string;
  d_operands : list Operand
}.

(** The pieces an output line is made of: literal numbers keep their role. *)
Inductive Token :=
| TText (s : string)
| TReg (r : string)
| TAddr (a : Z)
| TImm (v : Z)
| TScale (k : Z)
| TDisp (v : Z)
| TPlaceholder.

(** Modelled from the spec (§4.4): a hidden displacement becomes the
    placeholder while the registers of the addressing mode are kept. *)
Definition format_disp (o : DisasmOpts) (has_reg : bool) (d : Z) : list Token :=
  if show_mem_disp o then
    if has_reg && (d =? 0)%Z then [] else [TText " + "; TDisp d]
  else [TText " + "; TPlaceholder].

Definition format_operand (o : DisasmOpts) (op : Operand) : list Token :=
  match op with
  | OpReg r => [TReg r]
  | OpImm v => if show_imms o then [TImm v] else [TPlaceholder]
  | OpMem sz base index d =>
      [TText sz; TText " ptr ["]
      ++ match base with Some b => [TReg b] | None => [] end
      ++ match index with
         | Some (r, k) => [TText " + "; TReg r; TText "*"; TScale k]
         | None => []
         end
      ++ format_disp o (match base, index with None, None => false | _, _ => true end) d
      ++ [TText "]"]
  end.

Fixpoint format_operands (o : DisasmOpts) (ops : list Operand) : list Token :=
  match ops with
  | [] => []
  | [op] => format_operand o op
  | op :: rest => format_operand o op ++ TText ", " :: format_operands o rest
  end.

Definition format (o : DisasmOpts) (i : DecodedInstruction) : list Token :=
  (if print_adresses o then [TAddr (d_address i); TText " "] else [])
  ++ TText (d_mnemonic i) :: TText " " :: format_operands o (d_operands i).

Definition is_disp_token (t : Token) : bool :=
  match t with TDisp _ => true | _ => false end.

Definition is_imm_token (t : Token) : bool :=
  match t with TImm _ => true | _ => false end.

(** ** [parse_offset] and [is_vaild_number] of [main.rs] *)

(** [core::num::IntErrorKind] as [from_str_radix] reports it. *)
Inductive IntErrorKind := Empty | InvalidDigit | Overflow.

(** [char::to_digit(radix)]. *)
Definition to_digit (c : ascii) (radix : nat) : option nat :=
  let n := nat_of_ascii c in
  let v := if (48 <=? n)%nat && (n <=? 57)%nat then Some (n - 48)
           else if (97 <=? n)%nat && (n <=? 122)%nat then Some (n - 97 + 10)
           else if (65 <=? n)%nat && (n <=? 90)%nat then Some (n - 65 + 10)
           else None in
  match v with
  | Some d => if (d <? radix)%nat then Some d else None
  | None => None
  end.

(** The digit loop of [from_str_radix] for an unsigned 64-bit target:
    [checked_mul] then [checked_add], per byte. *)
Fixpoint digits_loop (radix : nat) (ds : string) (acc : Z) : result Z IntErrorKind :=
  match ds with
  | EmptyString => Ok acc
  | String c rest =>
      match to_digit c radix with
      | None => Err InvalidDigit
      | Some x =>
          let m := (acc * Z.of_nat radix)%Z in
          if (u64_modulus <=? m)%Z then Err Overflow else
          let a := (m + Z.of_nat x)%Z in
          if (u64_modulus <=? a)%Z then Err Overflow else
          digits_loop radix rest a
      end
  end.

(** [u64::from_str_radix(src, radix)]: an empty input is [Empty]; one leading
    [+] is skipped (a [-] is not, the type being unsigned). *)
Definition from_str_radix (src : string) (radix : nat) : result Z IntErrorKind :=
  match src with
  | EmptyString => Err Empty
  | String c rest =>
      let digits := if Ascii.eqb c "+"%char then rest else src in
      match digits with
      | EmptyString => Err Empty
      | _ => digits_loop radix digits 0
      end
  end.

Definition parse_offset (v : string) : result Z IntErrorKind :=
  if String.prefix "0x" v then from_str_radix (substring 2 (String.length v - 2) v) 16
  else from_str_radix v 10.

Definition is_vaild_number (v : string) : result unit string :=
  match parse_offset v with
  | Ok _ => Ok tt
  | Err _ => Err "Argument has to be a decimal or hex (0xDEADBEEF) number."
  end.

(** ** Derived notions used by the statements below *)

(** The options after a sequence of [run_disassemble] calls. *)
Definition run_all (o : Opts) (rs : list CompareResult) : Opts :=
  fold_left (fun o r => fst (run_disassemble o r)) rs o.

(** The most recent successful [(offset, length)] of a history, if any. *)
Definition last_success (init : option (Z * Z)) (rs : list CompareResult)
    : option (Z * Z) :=
  fold_left (fun acc r => match r with Ok p => Some p | Err _ => acc end) rs init.

(** The fixed text each error message starts with. *)
Definition message_category (k : ErrorKind) : string :=
  match k with
  | ToolInvocationFailed => "CvDump.exe error: "
  | ToolExitedUnsuccessfully => "CvDump exited with errorcode != 0."
  | KSymbolNotFound => "Symbol not found in the pdb."
  | IOFailure => "IO error: "
  | DecodeFailure => "Capstone disassembly engine error: "
  end.

(** The state [watch] has reached, whether it returned or is still looping. *)
Definition outcome_world (out : WatchOutcome) : World :=
  match out with Returned _ w => w | Watching w => w end.

(** Whether a received message is a [Create] or [Write] event. *)
Definition is_create_or_write (m : RecvResult) : bool :=
  match m with
  | RecvOk (Create _) | RecvOk (Write _) => true
  | _ => false
  end.

(** The radix and the text [parse_offset] hands to [from_str_radix]. *)
Definition offset_radix_and_digits (v : string) : nat * string :=
  if String.prefix "0x" v then (16, substring 2 (String.length v - 2) v) else (10, v).

(** Every character of [ds] is a digit of [radix]. *)
Fixpoint all_digits (radix : nat) (ds : string) : bool :=
  match ds with
  | EmptyString => true
  | String c rest =>
      match to_digit c radix with Some _ => all_digits radix rest | None => false end
  end.

(** The number the digits of [ds] denote, read after [acc]. *)
Fixpoint digits_value (radix : nat) (ds : string) (acc : Z) : Z :=
  match ds with
  | EmptyString => acc
  | String c rest =>
      match to_digit c radix with
      | Some x => digits_value radix rest (acc * Z.of_nat radix + Z.of_nat x)
      | None => acc
      end
  end.

(** In an effect trace, every failed comparison is immediately followed by
    the printing of its error message. *)
Definition failed_runs_reported (tr : list Effect) : Prop :=
  forall l1 l2 e, tr = (l1 ++ ERunCompare (Err e) :: l2)%list ->
  exists l3, l2 = EPrint (error_message e) :: l3.

(** * Properties *)

(** ** Delta reporting and the retained result *)

Lemma u64_sub_exact (a b : Z) :
  is_u64 a -> is_u64 b -> (b <= a)%Z -> u64_sub a b = (a - b)%Z.
Proof.
  unfold is_u64, u64_sub, u64_modulus; intros Ha Hb Hle.
  apply Z.mod_small; lia.
Qed.

Lemma u64_sub_below (a b : Z) :
  is_u64 a -> is_u64 b -> (a < b)%Z -> u64_sub a b = (a - b + 2 ^ 64)%Z.
Proof.
  unfold is_u64, u64_sub, u64_modulus; intros Ha Hb Hlt.
  rewrite <- (Z.mod_small (a - b + 2 ^ 64) (2 ^ 64)) by lia.
  rewrite <- Zplus_mod_idemp_r, Z_mod_same_full, Z.add_0_r; reflexivity.
Qed.

(** After a success yielding [(O1, L1)], the next success yielding [(O2, L2)]
    prints the deltas [O2 - O1] and [L2 - L1] as computed on [u64]. *)
Lemma run_disassemble_deltas (o : Opts) (o1 l1 o2 l2 : Z) :
  let o' := fst (run_disassemble o (Ok (o1, l1))) in
  offset_delta o' o2 = Some (u64_sub o2 o1) /\
  length_delta o' l2 = Some (u64_sub l2 l1) /\
  snd (run_disassemble o' (Ok (o2, l2))) = found_line o' o2 l2.
Proof. repeat split. Qed.

(** C1: the deltas are meant as signed differences (the [{:+X}] sign flag),
    but when the second offset is below the first the printed delta is the
    wrapped unsigned difference [2^64 + (O2 - O1)]: [+FFFFFFFFFFFFFFF0] for
    [O2 - O1 = -0x10], not [-0x10]. *)
Theorem delta_of_decreasing_offset_wraps :
  let o0 := mkOpts "foo.pdb" "foo" None true in
  let o1 := fst (run_disassemble o0 (Ok (4198416%Z, 32%Z))) in
  offset_delta o1 4198400%Z = Some (2 ^ 64 - 16)%Z /\
  snd (run_disassemble o1 (Ok (4198400%Z, 32%Z)))
  = "Found foo at offset: 401000 (+FFFFFFFFFFFFFFF0), length: 20 (+0)".
Proof. split; vm_compute; reflexivity. Qed.

Lemma run_all_last_offset_length (o : Opts) (rs : list CompareResult) :
  last_offset_length (run_all o rs) = last_success (last_offset_length o) rs.
Proof.
  unfold run_all, last_success.
  revert o; induction rs as [|r rs IH]; intros o; simpl; [reflexivity|].
  rewrite IH; destruct r as [[off len]|e]; reflexivity.
Qed.

(** C2: a failed run leaves the options, and with them the retained
    [(offset, length)], exactly as they were; a successful run replaces the
    retained pair by the new one and changes nothing else; so after any
    history the retained pair is the last successful result, and the deltas
    of the next success are taken against it. *)
Theorem run_disassemble_last_known_good :
  forall (o : Opts),
  (forall e, fst (run_disassemble o (Err e)) = o) /\
  (forall off len,
     fst (run_disassemble o (Ok (off, len))) = set_last_offset_length o (Some (off, len))) /\
  (forall rs off,
     last_offset_length (run_all o rs) = last_success (last_offset_length o) rs /\
     offset_delta (run_all o rs) off
     = match last_success (last_offset_length o) rs with
       | Some (old, _) => Some (u64_sub off old)
       | None => None
       end).
Proof.
  intros o; split; [reflexivity|]; split; [reflexivity|].
  intros rs off; rewrite <- run_all_last_offset_length; split; [reflexivity|].
  unfold offset_delta; reflexivity.
Qed.

(** ** Error reporting *)

Lemma append_empty_r (s : string) : s ++ "" = s.
Proof. induction s as [|c s IH]; simpl; [reflexivity|now rewrite IH]. Qed.

Lemma error_message_category (e : CoreError) :
  exists rest, error_message e = message_category (error_kind e) ++ rest.
Proof.
  destruct e; simpl;
    first [ eexists; reflexivity | exists ""%string; rewrite append_empty_r; reflexivity ].
Qed.

(** C4: every error of [run_compare] is printed, with a message that begins
    with the fixed text of its kind; the five texts are pairwise distinct and
    none is a prefix of another, so errors of different kinds always get
    different messages, whatever their payloads. *)
Theorem error_reporting_distinct :
  (forall o e, snd (run_disassemble o (Err e)) = error_message e /\
               exists rest, error_message e = message_category (error_kind e) ++ rest) /\
  (forall e1 e2, error_kind e1 <> error_kind e2 -> error_message e1 <> error_message e2).
Proof.
  split.
  - intros o e; split; [reflexivity|apply error_message_category].
  - intros e1 e2 Hk; destruct e1, e2; simpl in *;
      try (exfalso; apply Hk; reflexivity); discriminate.
Qed.

Lemma error_reporting_distinct_witness :
  error_message SymbolNotFound <> error_message (IoError "Os { code: 2 }").
Proof.
  apply (proj2 error_reporting_distinct SymbolNotFound (IoError "Os { code: 2 }")).
  discriminate.
Defined.

(** ** The watch loop *)

Lemma watch_step_extends (cmp : nat -> CompareResult) (w : World) (m : RecvResult) :
  exists es, w_trace (watch_step cmp w m) = (w_trace w ++ es)%list.
Proof.
  unfold watch_step, run_disassemble_w, emit.
  destruct m as [ev|]; [destruct ev|]; simpl;
    try (exists []; rewrite app_nil_r; reflexivity);
    try (destruct (run_disassemble _ _); eexists; reflexivity);
    eexists; reflexivity.
Qed.

Lemma watch_loop_extends (cmp : nat -> CompareResult) (ms : list RecvResult) :
  forall w, exists es, w_trace (watch_loop cmp w ms) = (w_trace w ++ es)%list.
Proof.
  unfold watch_loop; induction ms as [|m ms IH]; intros w; simpl.
  - exists []; rewrite app_nil_r; reflexivity.
  - destruct (watch_step_extends cmp w m) as [es1 H1].
    destruct (IH (watch_step cmp w m)) as [es2 H2].
    exists (es1 ++ es2)%list; rewrite H2, H1, app_assoc; reflexivity.
Qed.

Lemma run_disassemble_keeps_enable (o : Opts) (r : CompareResult) :
  enable_watcher (fst (run_disassemble o r)) = enable_watcher o /\
  compare_pdb_file (fst (run_disassemble o r)) = compare_pdb_file o.
Proof. destruct r as [[off len]|e]; split; reflexivity. Qed.

Lemma watch_step_runs (cmp : nat -> CompareResult) (w : World) (m : RecvResult) :
  w_runs (watch_step cmp w m) = (if is_create_or_write m then 1 else 0) + w_runs w.
Proof.
  unfold watch_step, run_disassemble_w, emit.
  destruct m as [ev|]; [destruct ev|]; simpl; try reflexivity;
    destruct (run_disassemble _ _); reflexivity.
Qed.

Lemma watch_loop_runs (cmp : nat -> CompareResult) (ms : list RecvResult) :
  forall w, w_runs (watch_loop cmp w ms) = count_occ Bool.bool_dec (map is_create_or_write ms) true + w_runs w.
Proof.
  unfold watch_loop; induction ms as [|m ms IH]; intros w; simpl; [reflexivity|].
  rewrite IH, watch_step_runs.
  destruct (is_create_or_write m); simpl; lia.
Qed.

(** C8: a received [Create] or [Write] event runs the comparison once; every
    other event leaves the state exactly as it was (no run, nothing printed);
    a receive error only prints ["Watch error: RecvError"]; so the number of
    runs over any sequence of messages is the number of [Create]/[Write]
    events in it. *)
Theorem watch_step_triggers :
  forall (cmp : nat -> CompareResult) (w : World),
  (forall p, watch_step cmp w (RecvOk (Create p)) = run_disassemble_w cmp w) /\
  (forall p, watch_step cmp w (RecvOk (Write p)) = run_disassemble_w cmp w) /\
  (forall ev, (forall p, ev <> Create p /\ ev <> Write p) ->
     watch_step cmp w (RecvOk ev) = w) /\
  watch_step cmp w RecvErr = emit w [EPrint "Watch error: RecvError"] /\
  (forall m, w_runs (watch_step cmp w m) = S (w_runs w) <->
             exists p, m = RecvOk (Create p) \/ m = RecvOk (Write p)) /\
  (forall ms, w_runs (watch_loop cmp w ms)
              = count_occ Bool.bool_dec (map is_create_or_write ms) true + w_runs w).
Proof.
  intros cmp w; split; [reflexivity|]; split; [reflexivity|]; split.
  { intros ev Hev; destruct ev; try reflexivity;
      [ destruct (Hev p) as [H _]; congruence
      | destruct (Hev p) as [_ H]; congruence ]. }
  split; [reflexivity|]; split.
  - intros m; rewrite watch_step_runs; split.
    + destruct m as [ev|]; [destruct ev|]; simpl; intros H; try lia;
        exists p; [left|right]; reflexivity.
    + intros [p [-> | ->]]; reflexivity.
  - intros ms; apply watch_loop_runs.
Qed.

Lemma watch_step_triggers_witness :
  watch_step (fun _ => Err SymbolNotFound) (mkWorld (mkOpts "foo.pdb" "foo" None true) 1 [])
    (RecvOk (Chmod "foo.pdb"))
  = mkWorld (mkOpts "foo.pdb" "foo" None true) 1 [].
Proof.
  apply (proj1 (proj2 (proj2 (watch_step_triggers (fun _ => Err SymbolNotFound)
           (mkWorld (mkOpts "foo.pdb" "foo" None true) 1 []))))).
  intros p; split; discriminate.
Defined.

(** C9: [watch] first makes exactly one comparison run and prints its line;
    whatever comes after starts with the creation of the watcher.  With
    watching disabled that single run is all it does, and it returns [Ok],
    also when the run failed and only printed its error. *)
Theorem watch_initial_run :
  (forall (cmp : nat -> CompareResult) new_res sub_res ms opts,
     exists rest,
       w_trace (outcome_world (watch cmp new_res sub_res ms opts))
       = (ERunCompare (cmp 0) :: EPrint (snd (run_disassemble opts (cmp 0))) :: rest)%list /\
       (rest = [] \/ exists rest', rest = ENewWatcher :: rest')) /\
  (forall (cmp : nat -> CompareResult) new_res sub_res ms opts,
     enable_watcher opts = false ->
     watch cmp new_res sub_res ms opts
     = Returned (Ok tt) (mkWorld (fst (run_disassemble opts (cmp 0))) 1
                           [ERunCompare (cmp 0); EPrint (snd (run_disassemble opts (cmp 0)))]) /\
     (forall e, cmp 0 = Err e ->
        w_trace (outcome_world (watch cmp new_res sub_res ms opts))
        = [ERunCompare (Err e); EPrint (error_message e)])).
Proof.
  split.
  - intros cmp new_res sub_res ms opts.
    unfold watch, run_disassemble_w; simpl.
    destruct (run_disassemble opts (cmp 0)) as [o1 line] eqn:Hr; simpl.
    destruct (enable_watcher o1) eqn:He; simpl.
    2: { exists []; split; [reflexivity|left; reflexivity]. }
    destruct new_res as [u|e]; simpl.
    2: { eexists; split; [reflexivity|right; eexists; reflexivity]. }
    destruct sub_res as [u'|e]; simpl.
    2: { eexists; split; [reflexivity|right; eexists; reflexivity]. }
    match goal with |- context [watch_loop cmp ?w ms] =>
      destruct (watch_loop_extends cmp ms w) as [es Hes] end.
    rewrite Hes; simpl.
    eexists; split; [reflexivity|right; eexists; reflexivity].
  - intros cmp new_res sub_res ms opts Hoff.
    assert (Hw : watch cmp new_res sub_res ms opts
     = Returned (Ok tt) (mkWorld (fst (run_disassemble opts (cmp 0))) 1
                           [ERunCompare (cmp 0); EPrint (snd (run_disassemble opts (cmp 0)))])).
    { unfold watch, run_disassemble_w; simpl.
      destruct (run_disassemble_keeps_enable opts (cmp 0)) as [He _].
      destruct (run_disassemble opts (cmp 0)) as [o1 line]; simpl in *.
      rewrite He, Hoff; reflexivity. }
    split; [exact Hw|].
    intros e He; rewrite Hw, He; reflexivity.
Qed.

Lemma watch_initial_run_witness :
  watch (fun _ => Err SymbolNotFound) (Ok tt) (Ok tt) [] (mkOpts "foo.pdb" "foo" None false)
  = Returned (Ok tt) (mkWorld (mkOpts "foo.pdb" "foo" None false) 1
      [ERunCompare (Err SymbolNotFound); EPrint "Symbol not found in the pdb."]).
Proof.
  apply (proj1 (proj2 watch_initial_run (fun _ => Err SymbolNotFound) (Ok tt) (Ok tt) []
                  (mkOpts "foo.pdb" "foo" None false) eq_refl)).
Defined.

(** C3 as stated: with watching disabled, [watch] returns although setting up
    the watcher never failed (it is not even attempted). *)
Lemma watch_returns_without_setup_failure :
  watch (fun _ => Ok (4198400%Z, 32%Z)) (Ok tt) (Ok tt) [] (mkOpts "foo.pdb" "foo" None false)
  = Returned (Ok tt) (mkWorld (mkOpts "foo.pdb" "foo" (Some (4198400%Z, 32%Z)) false) 1
      [ERunCompare (Ok (4198400%Z, 32%Z)); EPrint "Found foo at offset: 401000, length: 20"]).
Proof. vm_compute; reflexivity. Qed.

(** C3 (amended): [watch] returns only in two cases: [Ok] right after the
    initial run when watching is disabled, or the error of a failed watcher
    creation or subscription.  Once both succeeded it stays in its loop after
    any sequence of received messages, whatever the outcomes of the runs, and
    a run that fails prints its error and leaves the options unchanged. *)
Theorem watch_returns_only_on_setup :
  forall (cmp : nat -> CompareResult) new_res sub_res ms opts,
  (forall r w, watch cmp new_res sub_res ms opts = Returned r w ->
     (enable_watcher opts = false /\ r = Ok tt) \/
     (enable_watcher opts = true /\
      exists e, r = Err e /\ (new_res = Err e \/ (new_res = Ok tt /\ sub_res = Err e)))) /\
  (enable_watcher opts = true -> new_res = Ok tt -> sub_res = Ok tt ->
     exists w, watch cmp new_res sub_res ms opts = Watching w) /\
  (forall w e, cmp (w_runs w) = Err e ->
     run_disassemble_w cmp w
     = mkWorld (w_opts w) (S (w_runs w))
         (w_trace w ++ [ERunCompare (Err e); EPrint (error_message e)])%list).
Proof.
  intros cmp new_res sub_res ms opts.
  assert (He : enable_watcher (w_opts (run_disassemble_w cmp (mkWorld opts 0 [])))
               = enable_watcher opts).
  { unfold run_disassemble_w; simpl.
    destruct (run_disassemble_keeps_enable opts (cmp 0)) as [H _].
    destruct (run_disassemble opts (cmp 0)); exact H. }
  split; [|split].
  - intros r w Hw; unfold watch in Hw; rewrite He in Hw.
    destruct (enable_watcher opts); simpl in Hw.
    + right; split; [reflexivity|].
      destruct new_res as [[]|e]; [|inversion Hw; subst; eauto].
      destruct sub_res as [[]|e]; inversion Hw; subst; eauto.
    + left; inversion Hw; auto.
  - intros Hon -> ->; unfold watch; rewrite He, Hon; simpl; eexists; reflexivity.
  - intros w e Hc; unfold run_disassemble_w; rewrite Hc; reflexivity.
Qed.

Lemma watch_returns_only_on_setup_witness :
  exists w, watch (fun _ => Err SymbolNotFound) (Ok tt) (Ok tt)
              [RecvOk (Write "foo.pdb"); RecvErr] (mkOpts "foo.pdb" "foo" None true)
            = Watching w.
Proof.
  apply (proj1 (proj2 (watch_returns_only_on_setup (fun _ => Err SymbolNotFound) (Ok tt) (Ok tt)
           [RecvOk (Write "foo.pdb"); RecvErr] (mkOpts "foo.pdb" "foo" None true))));
    reflexivity.
Defined.

(** ** Address translation *)

Lemma in_section_overlap (a : Z) (s t : ImageSection) :
  in_section a s = true -> in_section a t = true -> sections_overlap s t.
Proof.
  unfold in_section, sections_overlap; rewrite !andb_true_iff, !Z.leb_le, !Z.ltb_lt; lia.
Qed.

Lemma filter_none (a : Z) (secs : list ImageSection) :
  (forall s, In s secs -> in_section a s = false) -> filter (in_section a) secs = [].
Proof.
  induction secs as [|t secs IH]; intros H; simpl; [reflexivity|].
  rewrite (H t (or_introl eq_refl)); apply IH; intros s Hs; apply H; right; exact Hs.
Qed.

Lemma filter_unique (a : Z) (secs : list ImageSection) (s : ImageSection) :
  well_formed secs -> In s secs -> in_section a s = true ->
  filter (in_section a) secs = [s].
Proof.
  unfold well_formed; intros Hwf; revert s.
  induction Hwf as [|t secs Hhd Htl IH]; intros s Hin Hs; [destruct Hin|].
  simpl; destruct Hin as [-> | Hin].
  - rewrite Hs, filter_none; [reflexivity|].
    intros u Hu; destruct (in_section a u) eqn:Ha; [|reflexivity].
    exfalso; rewrite Forall_forall in Hhd; apply (Hhd u Hu).
    exact (in_section_overlap a s u Hs Ha).
  - destruct (in_section a t) eqn:Ht.
    + exfalso; rewrite Forall_forall in Hhd; apply (Hhd s Hin).
      exact (in_section_overlap a t s Ht Hs).
    + exact (IH s Hin Hs).
Qed.

(** C5 (modelled from the spec): in a well-formed section map, an address
    inside a section translates to that section's file offset plus the
    distance from its virtual address; an address inside no section is an
    out-of-section error. *)
Theorem translate_spec :
  forall (secs : list ImageSection) (a : Z),
  (forall s, well_formed secs -> In s secs -> in_section a s = true ->
     translate secs a = Ok (file_offset s + (a - virtual_address s))%Z) /\
  ((forall s, In s secs -> in_section a s = false) ->
     translate secs a = Err AddressOutOfSection).
Proof.
  intros secs a; split.
  - intros s Hwf Hin Hs; unfold translate; rewrite (filter_unique a secs s Hwf Hin Hs).
    reflexivity.
  - intros Hnone; unfold translate; rewrite filter_none by exact Hnone; reflexivity.
Qed.

Lemma translate_spec_witness :
  translate [mkSection 4096 4096 1024; mkSection 8192 4096 5120] 8200%Z
  = Ok (5120 + (8200 - 8192))%Z.
Proof.
  apply (proj1 (translate_spec [mkSection 4096 4096 1024; mkSection 8192 4096 5120] 8200%Z)
           (mkSection 8192 4096 5120)).
  - repeat constructor; unfold sections_overlap; simpl; lia.
  - simpl; right; left; reflexivity.
  - vm_compute; reflexivity.
Defined.

(** ** Length capping of the compare stream *)

Section DecoderContract.

(** The decoding capability never consumes more bytes than it was given. *)
Variable dec : Decoder.
Hypothesis dec_bound : forall bs n txt, dec bs = Some (n, txt) -> n <= List.length bs.

Lemma decode_aux_consumed (fuel : nat) :
  forall bs addr rem, consumed (decode_aux dec fuel bs addr rem) <= List.length bs.
Proof.
  induction fuel as [|f IH]; intros bs addr rem; simpl; [lia|].
  destruct rem as [|r]; simpl; [lia|].
  destruct (dec bs) as [[n txt]|] eqn:Hd; [|simpl; lia].
  change (n + consumed (decode_aux dec f (skipn n bs) (addr + Z.of_nat n)%Z (S r - n))
          <= List.length bs).
  specialize (dec_bound _ _ _ Hd).
  specialize (IH (skipn n bs) (addr + Z.of_nat n)%Z (S r - n)).
  rewrite length_skipn in IH; lia.
Qed.

Lemma decode_at_consumed (image : list Byte.byte) (secs : list ImageSection) (rva : Z)
    (len : nat) (ins : list Instruction) :
  decode_at dec image secs rva len = Ok ins -> consumed ins <= len.
Proof.
  unfold decode_at, read_bytes.
  destruct (translate secs rva) as [off|]; [|discriminate].
  destruct ((0 <=? off) && (off + Z.of_nat len <=? Z.of_nat (List.length image)))%Z eqn:Hr;
    [|discriminate].
  rewrite andb_true_iff, !Z.leb_le in Hr.
  assert (Hlen : List.length (firstn len (skipn (Z.to_nat off) image)) = len).
  { rewrite length_firstn, length_skipn; lia. }
  intros Hd.
  assert (Hc : consumed (decode dec (firstn len (skipn (Z.to_nat off) image)) rva len) <= len).
  { unfold decode.
    pose proof (decode_aux_consumed (S (List.length (firstn len (skipn (Z.to_nat off) image))))
                  (firstn len (skipn (Z.to_nat off) image)) rva len) as Hc.
    rewrite Hlen in Hc |- *; exact Hc. }
  destruct (decode dec _ rva len) as [|i is] eqn:Hdec.
  - destruct (Nat.eqb len 0); inversion Hd; subst; simpl; lia.
  - inversion Hd; subst; exact Hc.
Qed.

End DecoderContract.

(** C6 (modelled from the spec): with [truncate_to_original] set and the
    reference length [R] known, the compare stream consumes at most [R]
    bytes, whatever length the debug metadata reported. *)
Theorem compare_stream_truncated :
  forall (dec : Decoder),
  (forall bs n txt, dec bs = Some (n, txt) -> n <= List.length bs) ->
  forall image secs rva final_len R ins,
  compare_stream dec image secs rva true final_len (Some R) = Ok ins ->
  consumed ins <= R.
Proof.
  intros dec Hdec image secs rva final_len R ins H.
  exact (decode_at_consumed dec Hdec image secs rva R ins H).
Qed.

(** A decoder that reads every byte as a one-byte instruction. *)
Definition decode_one_db : Decoder :=
  fun bs => match bs with [] => None | _ :: _ => Some (1, "db") end.

Lemma compare_stream_truncated_witness :
  compare_stream decode_one_db [Byte.x90; Byte.x90; Byte.x90; Byte.xc3]
    [mkSection 4198400 256 0] 4198400%Z true 4 (Some 2)
  = Ok [mkInstruction 4198400 1 "db"; mkInstruction 4198401 1 "db"] /\
  consumed [mkInstruction 4198400 1 "db"; mkInstruction 4198401 1 "db"] <= 2.
Proof.
  split; [vm_compute; reflexivity|].
  apply (compare_stream_truncated decode_one_db) with
    (image := [Byte.x90; Byte.x90; Byte.x90; Byte.xc3]) (secs := [mkSection 4198400 256 0])
    (rva := 4198400%Z) (final_len := 4).
  - intros bs n txt H; destruct bs; simpl in H; [discriminate|].
    inversion H; simpl; lia.
  - vm_compute; reflexivity.
Defined.

(** ** Operand redaction *)

Lemma format_operands_forall (P : Token -> Prop) (o : DisasmOpts) (ops : list Operand) :
  (forall op, Forall P (format_operand o op)) -> P (TText ", ") ->
  Forall P (format_operands o ops).
Proof.
  intros Hop Hsep; induction ops as [|op ops IH]; simpl; [constructor|].
  destruct ops as [|op' ops']; [apply Hop|].
  apply Forall_app; split; [apply Hop|constructor; [exact Hsep|exact IH]].
Qed.

Ltac tokens_ok :=
  repeat first [ progress simpl | apply Forall_app; split | constructor ].

(** C7 (modelled from the spec): with [show_mem_disp] off no displacement
    literal is emitted, with [show_imms] off no immediate literal is
    emitted, each whatever the other flag and the address column say; the
    flags come from [--no-mem-disp] and [--no-imms]. *)
Theorem format_redaction :
  forall (o : DisasmOpts) (i : DecodedInstruction),
  (show_mem_disp o = false -> Forall (fun t => is_disp_token t = false) (format o i)) /\
  (show_imms o = false -> Forall (fun t => is_imm_token t = false) (format o i)) /\
  (forall m : DisasmFlags,
     show_mem_disp (parse_disasm_opts m) = negb (present_no_mem_disp m) /\
     show_imms (parse_disasm_opts m) = negb (present_no_imms m)).
Proof.
  intros o i; split; [|split].
  - intros Hd; unfold format; apply Forall_app; split.
    { destruct (print_adresses o); tokens_ok. }
    constructor; [reflexivity|]; constructor; [reflexivity|].
    apply format_operands_forall; [|reflexivity].
    intros op; destruct op as [r|v|sz base index d]; simpl.
    + tokens_ok.
    + destruct (show_imms o); tokens_ok.
    + unfold format_disp; rewrite Hd.
      destruct base, index as [[r k]|]; tokens_ok.
  - intros Hi; unfold format; apply Forall_app; split.
    { destruct (print_adresses o); tokens_ok. }
    constructor; [reflexivity|]; constructor; [reflexivity|].
    apply format_operands_forall; [|reflexivity].
    intros op; destruct op as [r|v|sz base index d]; simpl.
    + tokens_ok.
    + rewrite Hi; tokens_ok.
    + unfold format_disp.
      destruct (show_mem_disp o), base, index as [[r k]|];
        try destruct (_ && _); tokens_ok.
  - intros m; split; reflexivity.
Qed.

Lemma format_redaction_witness :
  Forall (fun t => is_disp_token t = false)
    (format (parse_disasm_opts (mkDisasmFlags true true false))
       (mkDecoded 4198400 "mov" [OpMem "dword" (Some "ebp") None (-8)%Z; OpImm 16])).
Proof.
  apply (proj1 (format_redaction (parse_disasm_opts (mkDisasmFlags true true false))
           (mkDecoded 4198400 "mov" [OpMem "dword" (Some "ebp") None (-8)%Z; OpImm 16]))).
  reflexivity.
Defined.

(** ** Parsing the offset argument *)

Lemma digits_value_ge (radix : nat) (ds : string) :
  (1 <= radix)%nat -> forall acc, (0 <= acc)%Z -> (acc <= digits_value radix ds acc)%Z.
Proof.
  intros Hr; induction ds as [|c rest IH]; intros acc Ha; simpl; [lia|].
  destruct (to_digit c radix) as [x|]; [|lia].
  specialize (IH (acc * Z.of_nat radix + Z.of_nat x)%Z); nia.
Qed.

Lemma digits_loop_ok (radix : nat) (ds : string) :
  (1 <= radix)%nat ->
  forall acc v, (0 <= acc < u64_modulus)%Z ->
  digits_loop radix ds acc = Ok v <->
  all_digits radix ds = true /\ digits_value radix ds acc = v /\ (v < u64_modulus)%Z.
Proof.
  intros Hr; induction ds as [|c rest IH]; intros acc v Ha; simpl.
  - split; [intros H; inversion H; subst; lia|intros (_ & <- & _); reflexivity].
  - destruct (to_digit c radix) as [x|] eqn:Hc.
    2: { split; [discriminate|intros (H & _); discriminate]. }
    pose proof (digits_value_ge radix rest Hr (acc * Z.of_nat radix + Z.of_nat x)) as Hge.
    destruct (u64_modulus <=? acc * Z.of_nat radix)%Z eqn:Hm.
    { rewrite Z.leb_le in Hm; split; [discriminate|].
      intros (_ & Hv & Hlt); specialize (Hge ltac:(lia)); lia. }
    rewrite Z.leb_gt in Hm.
    destruct (u64_modulus <=? acc * Z.of_nat radix + Z.of_nat x)%Z eqn:Ha2.
    { rewrite Z.leb_le in Ha2; split; [discriminate|].
      intros (_ & Hv & Hlt); specialize (Hge ltac:(lia)); lia. }
    rewrite Z.leb_gt in Ha2.
    apply IH; lia.
Qed.

Lemma to_digit_plus (radix : nat) : (radix <= 16)%nat -> to_digit "+"%char radix = None.
Proof. intros H; unfold to_digit; simpl; reflexivity. Qed.

Lemma all_digits_plus (radix : nat) (d : string) :
  (radix <= 16)%nat -> all_digits radix (String "+" d) = false.
Proof.
  intros H.
  change (match to_digit "+"%char radix with
          | Some _ => all_digits radix d | None => false end = false).
  rewrite to_digit_plus by exact H; reflexivity.
Qed.

Lemma from_str_radix_ok (src : string) (radix : nat) (v : Z) :
  (1 <= radix <= 16)%nat ->
  from_str_radix src radix = Ok v <->
  exists d, (src = d \/ src = String "+" d) /\ d <> ""%string /\
            all_digits radix d = true /\ digits_value radix d 0 = v /\
            (0 <= v < u64_modulus)%Z.
Proof.
  intros Hr.
  assert (Hloop : forall d, digits_loop radix d 0 = Ok v <->
            all_digits radix d = true /\ digits_value radix d 0 = v /\ (0 <= v < u64_modulus)%Z).
  { intros d; rewrite (digits_loop_ok radix d ltac:(lia) 0 v ltac:(unfold u64_modulus; lia)).
    pose proof (digits_value_ge radix d ltac:(lia) 0 ltac:(lia)).
    split; [intros (? & ? & ?); subst; repeat split; auto; lia|intros (? & ? & ? & ?); auto]. }
  unfold from_str_radix; destruct src as [|c rest].
  - split; [discriminate|].
    intros (d & [<- | Hd] & Hne & _); [congruence|discriminate].
  - destruct (Ascii.eqb c "+") eqn:Hp.
    + apply Ascii.eqb_eq in Hp; subst c.
      destruct rest as [|c' rest'].
      * split; [discriminate|].
        intros (d & [<- | Hd] & Hne & Hall & _).
        -- rewrite all_digits_plus in Hall by lia; discriminate.
        -- inversion Hd; subst; congruence.
      * rewrite Hloop; split.
        -- intros (Hall & Hv & Hb); exists (String c' rest').
           split; [right; reflexivity|]; split; [discriminate|]; auto.
        -- intros (d & [Hd | Hd] & Hne & Hall & Hv & Hb).
           ++ subst d; rewrite all_digits_plus in Hall by lia; discriminate.
           ++ inversion Hd; subst; auto.
    + rewrite Hloop; split.
      * intros (Hall & Hv & Hb); exists (String c rest).
        split; [left; reflexivity|]; split; [discriminate|]; auto.
      * intros (d & [Hd | Hd] & Hne & Hall & Hv & Hb).
        -- subst d; auto.
        -- inversion Hd; subst; discriminate.
Qed.

(** C10 as stated: a leading [+] is not a decimal digit, yet [parse_offset]
    accepts ["+10"] (and ["0x+ff"]), since [u64::from_str_radix] skips one
    leading plus sign. *)
Lemma parse_offset_accepts_plus :
  to_digit "+"%char 10 = None /\ parse_offset "+10" = Ok 10%Z /\
  to_digit "+"%char 16 = None /\ parse_offset "0x+ff" = Ok 255%Z.
Proof. vm_compute; repeat split. Qed.

(** C10 (amended): [parse_offset s] reads [s[2..]] in base 16 when [s]
    starts with the lower-case ["0x"] and all of [s] in base 10 otherwise;
    it accepts exactly a non-empty run of digits of that base, optionally
    preceded by one [+], whose value is below [2^64], and returns that
    value.  So an upper-case ["0X"] prefix, a bare ["0x"], and any other
    character outside the base make it (and [is_vaild_number]) fail. *)
Theorem parse_offset_spec :
  forall (s : string),
  parse_offset s = from_str_radix (snd (offset_radix_and_digits s))
                                  (fst (offset_radix_and_digits s)) /\
  (forall v, parse_offset s = Ok v <->
     exists d, (snd (offset_radix_and_digits s) = d \/
                snd (offset_radix_and_digits s) = String "+" d) /\
               d <> ""%string /\ all_digits (fst (offset_radix_and_digits s)) d = true /\
               digits_value (fst (offset_radix_and_digits s)) d 0 = v /\
               (0 <= v < u64_modulus)%Z) /\
  (is_vaild_number s = Ok tt <-> exists v, parse_offset s = Ok v) /\
  (forall t, exists e, parse_offset (String "0" (String "X" t)) = Err e) /\
  parse_offset "0x" = Err Empty.
Proof.
  intros s.
  assert (Hsel : parse_offset s = from_str_radix (snd (offset_radix_and_digits s))
                                                 (fst (offset_radix_and_digits s))).
  { unfold parse_offset, offset_radix_and_digits; destruct (String.prefix "0x" s); reflexivity. }
  split; [exact Hsel|]; split; [|split; [|split]].
  - intros v; rewrite Hsel; apply from_str_radix_ok.
    unfold offset_radix_and_digits; destruct (String.prefix "0x" s); simpl; lia.
  - unfold is_vaild_number; destruct (parse_offset s) as [v|e]; split.
    + intros _; exists v; reflexivity.
    + reflexivity.
    + discriminate.
    + intros (v & Hv); discriminate.
  - intros t; exists InvalidDigit; reflexivity.
  - reflexivity.
Qed.

(** * Further properties of the code *)

(** ** Upper-case hex printing and [parse_offset] *)

Lemma to_digit_hex_digit (d : Z) :
  (0 <= d < 16)%Z -> to_digit (hex_digit d) 16 = Some (Z.to_nat d).
Proof.
  intros Hd.
  assert (Hc : d = 0%Z \/ d = 1%Z \/ d = 2%Z \/ d = 3%Z \/ d = 4%Z \/ d = 5%Z \/ d = 6%Z \/
               d = 7%Z \/ d = 8%Z \/ d = 9%Z \/ d = 10%Z \/ d = 11%Z \/ d = 12%Z \/
               d = 13%Z \/ d = 14%Z \/ d = 15%Z) by lia.
  repeat destruct Hc as [-> | Hc]; try reflexivity; subst; reflexivity.
Qed.

Lemma hex_aux_digits (f : nat) :
  forall n acc, (0 <= n < 16 ^ Z.of_nat f)%Z ->
  all_digits 16 (hex_aux f n acc) = all_digits 16 acc /\
  digits_value 16 (hex_aux f n acc) 0 = digits_value 16 acc n.
Proof.
  induction f as [|f IH]; intros n acc Hn.
  - simpl in Hn; replace n with 0%Z by lia; split; reflexivity.
  - rewrite Nat2Z.inj_succ, Z.pow_succ_r in Hn by lia.
    assert (Hm : (0 <= n mod 16 < 16)%Z) by (apply Z.mod_pos_bound; lia).
    assert (Hstep : all_digits 16 (String (hex_digit (n mod 16)) acc) = all_digits 16 acc /\
                    digits_value 16 (String (hex_digit (n mod 16)) acc) (n / 16)
                    = digits_value 16 acc n).
    { simpl; rewrite (to_digit_hex_digit _ Hm); split; [reflexivity|].
      f_equal; rewrite Z2Nat.id by lia; simpl Z.of_nat.
      pose proof (Z.div_mod n 16); lia. }
    simpl; destruct (n <? 16)%Z eqn:Hlt.
    + rewrite Z.ltb_lt in Hlt.
      rewrite Z.div_small in Hstep by lia; exact Hstep.
    + rewrite Z.ltb_ge in Hlt.
      destruct (IH (n / 16)%Z (String (hex_digit (n mod 16)) acc)) as [IH1 IH2].
      { split; [apply Z.div_pos; lia|apply Z.div_lt_upper_bound; lia]. }
      rewrite IH1, IH2; exact Hstep.
Qed.

Lemma hex_aux_nonempty (f : nat) :
  forall n c t, exists c' t', hex_aux f n (String c t) = String c' t'.
Proof.
  induction f as [|f IH]; intros n c t; simpl; [eauto|].
  destruct (n <? 16)%Z; [eauto|apply IH].
Qed.

Lemma hex_aux_S (f : nat) (n : Z) (acc : string) :
  hex_aux (S f) n acc
  = if (n <? 16)%Z then String (hex_digit (n mod 16)) acc
    else hex_aux f (n / 16) (String (hex_digit (n mod 16)) acc).
Proof. reflexivity. Qed.

Lemma substring_full (s : string) : substring 0 (String.length s) s = s.
Proof. induction s as [|c s IH]; simpl; [reflexivity|now rewrite IH]. Qed.

Lemma parse_offset_hex_prefix (t : string) :
  parse_offset ("0x" ++ t) = from_str_radix t 16.
Proof.
  unfold parse_offset; simpl.
  replace (prefix "" t) with true by (destruct t; reflexivity).
  rewrite Nat.sub_0_r, substring_full; reflexivity.
Qed.

(** X1: printing a [u64] with [{:X}] (as the "Found" line does) and reading it
    back with [parse_offset] after a ["0x"] prefix gives the same number. *)
Theorem parse_offset_upper_hex_roundtrip :
  forall n : Z, is_u64 n -> parse_offset ("0x" ++ fmt_upper_hex n) = Ok n.
Proof.
  intros n Hn; unfold is_u64, u64_modulus in Hn.
  destruct (hex_aux_digits 16 n "" ltac:(simpl; lia)) as [Hall Hval].
  change (hex_aux 16 n "") with (fmt_upper_hex n) in Hall, Hval.
  assert (Hne : fmt_upper_hex n <> ""%string).
  { unfold fmt_upper_hex; rewrite hex_aux_S.
    destruct (n <? 16)%Z; [discriminate|].
    destruct (hex_aux_nonempty 15 (n / 16)%Z (hex_digit (n mod 16)) "") as (c & t & ->).
    discriminate. }
  rewrite parse_offset_hex_prefix.
  apply from_str_radix_ok; [lia|].
  exists (fmt_upper_hex n); split; [left; reflexivity|]; split; [exact Hne|].
  split; [exact Hall|split; [exact Hval|unfold u64_modulus; lia]].
Qed.

Lemma parse_offset_upper_hex_roundtrip_witness :
  parse_offset ("0x" ++ fmt_upper_hex 4198400%Z) = Ok 4198400%Z.
Proof.
  apply parse_offset_upper_hex_roundtrip; unfold is_u64, u64_modulus; lia.
Defined.



Lemma digits_loop_valid (radix : nat) (ds : string) :
  (1 <= radix)%nat -> all_digits radix ds = true ->
  forall acc, (0 <= acc < u64_modulus)%Z ->
  digits_loop radix ds acc
  = if (digits_value radix ds acc <? u64_modulus)%Z
    then Ok (digits_value radix ds acc) else Err Overflow.
Proof.
  intros Hr; induction ds as [|c rest IH]; intros Hall acc Ha; simpl in *.
  - destruct (acc <? u64_modulus)%Z eqn:H; [reflexivity|rewrite Z.ltb_ge in H; lia].
  - destruct (to_digit c radix) as [x|]; [|discriminate].
    pose proof (digits_value_ge radix rest Hr (acc * Z.of_nat radix + Z.of_nat x)) as Hge.
    destruct (u64_modulus <=? acc * Z.of_nat radix)%Z eqn:Hm.
    { rewrite Z.leb_le in Hm.
      destruct (_ <? u64_modulus)%Z eqn:Hv; [|reflexivity].
      rewrite Z.ltb_lt in Hv; specialize (Hge ltac:(lia)); lia. }
    rewrite Z.leb_gt in Hm.
    destruct (u64_modulus <=? acc * Z.of_nat radix + Z.of_nat x)%Z eqn:Ha2.
    { rewrite Z.leb_le in Ha2.
      destruct (_ <? u64_modulus)%Z eqn:Hv; [|reflexivity].
      rewrite Z.ltb_lt in Hv; specialize (Hge ltac:(lia)); lia. }
    rewrite Z.leb_gt in Ha2.
    apply IH; [exact Hall|lia].
Qed.

(** X3: for an argument whose digits (after an optional [+]) are all valid
    for the selected base, [parse_offset] returns their value when it is
    below [2^64] and reports [Overflow] otherwise; an over-long but valid
    number is never reported as an invalid digit. *)
Theorem parse_offset_valid_digits :
  forall (s d : string),
  (snd (offset_radix_and_digits s) = d \/ snd (offset_radix_and_digits s) = String "+" d) ->
  d <> ""%string -> all_digits (fst (offset_radix_and_digits s)) d = true ->
  parse_offset s
  = if (digits_value (fst (offset_radix_and_digits s)) d 0 <? u64_modulus)%Z
    then Ok (digits_value (fst (offset_radix_and_digits s)) d 0) else Err Overflow.
Proof.
  intros s d Hbody Hne Hall; rewrite (proj1 (parse_offset_spec s)).
  assert (Hr : (1 <= fst (offset_radix_and_digits s))%nat).
  { unfold offset_radix_and_digits; destruct (String.prefix "0x" s); simpl; lia. }
  assert (Hr16 : (fst (offset_radix_and_digits s) <= 16)%nat).
  { unfold offset_radix_and_digits; destruct (String.prefix "0x" s); simpl; lia. }
  destruct (offset_radix_and_digits s) as [radix body]; simpl in *.
  rewrite <- (digits_loop_valid radix d Hr Hall 0) by (unfold u64_modulus; lia).
  unfold from_str_radix; destruct Hbody as [-> | ->].
  - destruct d as [|c rest]; [congruence|].
    destruct (Ascii.eqb c "+") eqn:Hp; [|reflexivity].
    apply Ascii.eqb_eq in Hp; subst c.
    rewrite all_digits_plus in Hall by exact Hr16; discriminate.
  - simpl; destruct d; [congruence|reflexivity].
Qed.

Lemma parse_offset_valid_digits_witness :
  parse_offset "0x10000000000000000" = Err Overflow.
Proof.
  rewrite (parse_offset_valid_digits "0x10000000000000000" "10000000000000000");
    [reflexivity|left; reflexivity|discriminate|reflexivity].
Defined.

(** X4: zero padding after the ["0x"] prefix does not change the result:
    ["0x0" ++ t] parses as ["0x" ++ t] for every non-empty [t] that does not
    start with [+]. *)
Theorem parse_offset_hex_zero_padding :
  forall (c : ascii) (t : string),
  c <> "+"%char ->
  parse_offset ("0x0" ++ String c t) = parse_offset ("0x" ++ String c t).
Proof.
  intros c t Hc.
  change ("0x0" ++ String c t) with ("0x" ++ String "0" (String c t)).
  rewrite !parse_offset_hex_prefix.
  unfold from_str_radix.
  replace (Ascii.eqb c "+") with false
    by (symmetry; apply Ascii.eqb_neq; exact Hc).
  reflexivity.
Qed.

Lemma parse_offset_hex_zero_padding_witness :
  parse_offset ("0x0" ++ "0401000") = parse_offset ("0x" ++ "0401000").
Proof. apply parse_offset_hex_zero_padding; discriminate. Defined.

(** ** The "Found" line *)

Lemma string_app_assoc (a b c : string) : (a ++ b) ++ c = a ++ (b ++ c).
Proof. induction a as [|x a IH]; simpl; [reflexivity|now rewrite IH]. Qed.

(** X5: with no earlier result (as [main] starts) the success line carries no
    deltas; after a success with [(O1, L1)], a success with [O1 <= O2] and
    [L1 <= L2] prints the exact differences [O2 - O1] and [L2 - L1] with a
    [+] sign. *)
Theorem found_line_deltas :
  forall (o : Opts) (o1 l1 o2 l2 : Z),
  (last_offset_length o = None ->
   snd (run_disassemble o (Ok (o2, l2)))
   = "Found " ++ debug_symbol o ++ " at offset: " ++ fmt_upper_hex o2
     ++ ", length: " ++ fmt_upper_hex l2) /\
  (is_u64 o1 -> is_u64 l1 -> is_u64 o2 -> is_u64 l2 -> (o1 <= o2)%Z -> (l1 <= l2)%Z ->
   snd (run_disassemble (fst (run_disassemble o (Ok (o1, l1)))) (Ok (o2, l2)))
   = "Found " ++ debug_symbol o ++ " at offset: " ++ fmt_upper_hex o2
     ++ " (+" ++ fmt_upper_hex (o2 - o1) ++ "), length: " ++ fmt_upper_hex l2
     ++ " (+" ++ fmt_upper_hex (l2 - l1) ++ ")").
Proof.
  intros o o1 l1 o2 l2; split.
  - intros Hn; simpl; unfold found_line, offset_delta, length_delta; rewrite Hn.
    simpl; rewrite append_empty_r; reflexivity.
  - intros H1 H2 H3 H4 Ho Hl; simpl.
    unfold found_line, offset_delta, length_delta; simpl.
    rewrite (u64_sub_exact o2 o1), (u64_sub_exact l2 l1) by assumption.
    unfold fmt_plus_upper_hex; simpl; rewrite !string_app_assoc; reflexivity.
Qed.

Lemma found_line_deltas_witness :
  snd (run_disassemble (fst (run_disassemble (mkOpts "foo.pdb" "foo" None true)
                                (Ok (4198400%Z, 32%Z)))) (Ok (4198416%Z, 48%Z)))
  = "Found foo at offset: 401010 (+10), length: 30 (+10)".
Proof.
  rewrite (proj2 (found_line_deltas (mkOpts "foo.pdb" "foo" None true)
                    4198400%Z 32%Z 4198416%Z 48%Z));
    unfold is_u64, u64_modulus; try lia.
  vm_compute; reflexivity.
Defined.

(** ** Whole [watch] sessions *)

Lemma emit_opts_runs (w : World) (es : list Effect) :
  w_opts (emit w es) = w_opts w /\ w_runs (emit w es) = w_runs w.
Proof. split; reflexivity. Qed.

Lemma last_success_snoc (init : option (Z * Z)) (rs : list CompareResult) (r : CompareResult) :
  last_success init (rs ++ [r])%list
  = match r with Ok p => Some p | Err _ => last_success init rs end.
Proof. unfold last_success; rewrite fold_left_app; reflexivity. Qed.

Section Sessions.

Variable cmp : nat -> CompareResult.
Variable init : option (Z * Z).

Definition retained_inv (w : World) : Prop :=
  last_offset_length (w_opts w) = last_success init (map cmp (seq 0 (w_runs w))).

Lemma run_disassemble_w_fields (w : World) :
  w_opts (run_disassemble_w cmp w) = fst (run_disassemble (w_opts w) (cmp (w_runs w))) /\
  w_runs (run_disassemble_w cmp w) = S (w_runs w).
Proof.
  unfold run_disassemble_w; destruct (run_disassemble _ _); split; reflexivity.
Qed.

Lemma run_disassemble_w_inv (w : World) :
  retained_inv w -> retained_inv (run_disassemble_w cmp w).
Proof.
  unfold retained_inv; intros H.
  destruct (run_disassemble_w_fields w) as [-> ->].
  rewrite seq_S, map_app; cbn [map]; rewrite Nat.add_0_l, last_success_snoc.
  destruct (cmp (w_runs w)) as [[off len]|e]; [reflexivity|exact H].
Qed.

Lemma watch_loop_inv (ms : list RecvResult) :
  forall w, retained_inv w -> retained_inv (watch_loop cmp w ms).
Proof.
  unfold watch_loop; induction ms as [|m ms IH]; intros w H; simpl; [exact H|].
  apply IH; unfold watch_step.
  destruct m as [ev|]; [destruct ev|]; try exact H; try (apply run_disassemble_w_inv; exact H).
Qed.

End Sessions.

(** X6: at every point of a [watch] session, whether it returned or is still
    looping, the retained [(offset, length)] is the result of the last
    successful comparison among all runs made so far (the initial one and
    the triggered ones), or the starting value if none succeeded. *)
Theorem watch_retained_is_last_success :
  forall (cmp : nat -> CompareResult) new_res sub_res ms opts,
  let w := outcome_world (watch cmp new_res sub_res ms opts) in
  last_offset_length (w_opts w)
  = last_success (last_offset_length opts) (map cmp (seq 0 (w_runs w))).
Proof.
  intros cmp new_res sub_res ms opts; simpl.
  assert (H1 : retained_inv cmp (last_offset_length opts)
                 (run_disassemble_w cmp (mkWorld opts 0 []))).
  { apply run_disassemble_w_inv; reflexivity. }
  unfold watch.
  destruct (negb _); [exact H1|].
  destruct new_res; [|exact H1].
  destruct sub_res; [|exact H1].
  apply watch_loop_inv; exact H1.
Qed.

(** X7: once the watcher is set up, the number of comparison runs is one (the
    initial run) plus the number of [Create]/[Write] events received. *)
Theorem watch_run_count :
  forall (cmp : nat -> CompareResult) new_res sub_res ms opts w,
  watch cmp new_res sub_res ms opts = Watching w ->
  w_runs w = S (count_occ Bool.bool_dec (map is_create_or_write ms) true).
Proof.
  intros cmp new_res sub_res ms opts w Hw; unfold watch in Hw.
  destruct (negb _); [discriminate|].
  destruct new_res; [|discriminate].
  destruct sub_res; [|discriminate].
  inversion Hw; subst; rewrite watch_loop_runs.
  unfold run_disassemble_w; destruct (run_disassemble _ _); simpl; lia.
Qed.

Lemma watch_run_count_witness :
  w_runs (outcome_world (watch (fun _ => Err SymbolNotFound) (Ok tt) (Ok tt)
     [RecvOk (Write "foo.pdb"); RecvOk (Chmod "foo.pdb"); RecvErr; RecvOk (Create "foo.pdb")]
     (mkOpts "foo.pdb" "foo" None true))) = 3.
Proof.
  apply (watch_run_count (fun _ => Err SymbolNotFound) (Ok tt) (Ok tt)
     [RecvOk (Write "foo.pdb"); RecvOk (Chmod "foo.pdb"); RecvErr; RecvOk (Create "foo.pdb")]
     (mkOpts "foo.pdb" "foo" None true)).
  reflexivity.
Defined.

Lemma snoc_split {A : Type} (l l1 l2 : list A) (x y : A) :
  (l ++ [x] = l1 ++ y :: l2)%list ->
  (l2 = [] /\ x = y /\ l = l1) \/ (exists l2', l2 = (l2' ++ [x])%list /\ l = (l1 ++ y :: l2')%list).
Proof.
  intros H; induction l2 as [|z l2' _] using rev_ind.
  - left; apply app_inj_tail in H; destruct H; subst; auto.
  - right; rewrite app_comm_cons, app_assoc in H.
    apply app_inj_tail in H; destruct H; subst; eauto.
Qed.

Lemma reported_emit1 (tr : list Effect) (x : Effect) :
  (forall r, x <> ERunCompare r) ->
  failed_runs_reported tr -> failed_runs_reported (tr ++ [x])%list.
Proof.
  intros Hx H l1 l2 e Heq.
  destruct (snoc_split _ _ _ _ _ Heq) as [(_ & -> & _) | (l2' & -> & Hl)].
  - exfalso; exact (Hx _ eq_refl).
  - destruct (H l1 l2' e Hl) as [l3 ->]; eexists; reflexivity.
Qed.

Lemma reported_run (tr : list Effect) (o : Opts) (r : CompareResult) :
  failed_runs_reported tr ->
  failed_runs_reported (tr ++ [ERunCompare r; EPrint (snd (run_disassemble o r))])%list.
Proof.
  intros H l1 l2 e Heq.
  change (tr ++ [ERunCompare r; EPrint (snd (run_disassemble o r))])%list
    with (tr ++ [ERunCompare r] ++ [EPrint (snd (run_disassemble o r))])%list in Heq.
  rewrite app_assoc in Heq.
  destruct (snoc_split _ _ _ _ _ Heq) as [(_ & Hb & _) | (l2' & -> & Hl)]; [discriminate|].
  destruct (snoc_split _ _ _ _ _ Hl) as [(-> & Ha & _) | (l2'' & -> & Hl')].
  - injection Ha as ->; eexists; reflexivity.
  - destruct (H l1 l2'' e Hl') as [l3 ->]; eexists; reflexivity.
Qed.

Lemma reported_step (cmp : nat -> CompareResult) (w : World) (m : RecvResult) :
  failed_runs_reported (w_trace w) -> failed_runs_reported (w_trace (watch_step cmp w m)).
Proof.
  intros H; unfold watch_step.
  assert (Hrun : failed_runs_reported (w_trace (run_disassemble_w cmp w))).
  { unfold run_disassemble_w.
    destruct (run_disassemble (w_opts w) (cmp (w_runs w))) as [o' line] eqn:Hr; simpl.
    replace line with (snd (run_disassemble (w_opts w) (cmp (w_runs w)))) by (rewrite Hr; reflexivity).
    apply reported_run; exact H. }
  destruct m as [ev|]; [destruct ev|]; try exact H; try exact Hrun.
  apply reported_emit1; [discriminate|exact H].
Qed.

Lemma watch_loop_reported (cmp : nat -> CompareResult) (ms : list RecvResult) :
  forall w, failed_runs_reported (w_trace w) ->
  failed_runs_reported (w_trace (watch_loop cmp w ms)).
Proof.
  unfold watch_loop; induction ms as [|m ms IH]; intros w Hw; simpl; [exact Hw|].
  apply IH; apply reported_step; exact Hw.
Qed.

(** X8: no failed run of a [watch] session goes unreported: in the effects
    of the session, every comparison that failed with [e] is immediately
    followed by the printing of [error_message e]. *)
Theorem watch_failed_runs_reported :
  forall (cmp : nat -> CompareResult) new_res sub_res ms opts,
  failed_runs_reported (w_trace (outcome_world (watch cmp new_res sub_res ms opts))).
Proof.
  intros cmp new_res sub_res ms opts.
  assert (H0 : failed_runs_reported []).
  { intros l1 l2 e Heq; destruct l1; discriminate. }
  assert (H1 : failed_runs_reported (w_trace (run_disassemble_w cmp (mkWorld opts 0 [])))).
  { exact (reported_step cmp (mkWorld opts 0 []) (RecvOk (Write "")) H0). }
  assert (Hemit : forall w x, (forall r, x <> ERunCompare r) ->
            failed_runs_reported (w_trace w) -> failed_runs_reported (w_trace (emit w [x]))).
  { intros w x Hx Hw; apply reported_emit1; assumption. }
  unfold watch, outcome_world.
  destruct (negb _); [exact H1|].
  destruct new_res; [|apply Hemit; [intros r; discriminate|exact H1]].
  destruct sub_res; [|repeat (apply Hemit; [intros r; discriminate|]); exact H1].
  apply watch_loop_reported; repeat (apply Hemit; [intros r; discriminate|]); exact H1.
Qed.

Lemma watch_failed_runs_reported_witness :
  exists l3,
    [EPrint "Symbol not found in the pdb."; ENewWatcher; EWatchPath "foo.pdb";
     EPrint "Started watching foo.pdb for changes. CTRL+C to quit."]
    = EPrint (error_message SymbolNotFound) :: l3.
Proof.
  apply (watch_failed_runs_reported (fun _ => Err SymbolNotFound) (Ok tt) (Ok tt) []
           (mkOpts "foo.pdb" "foo" None true) []
           [EPrint "Symbol not found in the pdb."; ENewWatcher; EWatchPath "foo.pdb";
            EPrint "Started watching foo.pdb for changes. CTRL+C to quit."] SymbolNotFound).
  vm_compute; reflexivity.
Defined.
